(** * RepositorySelect: selection-status resolution and the repository codec

    A shallow embedding of [src/app/credExplorer/RepositorySelect.js]:
    - [validateRepo], [repoStringToRepo] and the option-token formatting of
      [PureRepositorySelect.renderSelect] (the Repo codec);
    - [loadStatus] (the resolver), written in a small exception monad whose
      top-level [try]/[catch] is the final match of [loadStatus];
    - the component state of [RepositorySelect] and
      [LocalStoreRepositorySelect] (the controller), as explicit state
      passing over the status, the local store and the log of calls to the
      host's [onChange] callback.

    JS strings are modelled as Stdlib [string]s; JS string comparison
    ([<], [>] on code units) is [String.compare]. *)

From Stdlib Require Import Strings.String Strings.Ascii Sorting.Sorted.
From stdpp Require Import base list gmap strings.

Open Scope string_scope.
Set Warnings "-register-all".

(** ** Data model *)

(** [type Repo = {|+owner: string, +name: string|}] (from repoRegistry). *)
Record Repo := mkRepo { owner : string; name : string }.

(** [export type Status = ...] *)
Inductive Status :=
| LOADING
| VALID (availableRepos : list Repo) (selectedRepo : Repo)
| NO_REPOS
| FAILURE.

(** JSON values, as held by the local store ([JSON.parse] of what was
    stored). Objects are association lists with distinct keys. *)
Inductive json :=
| JNull
| JBool (b : bool)
| JNumber (n : Z)
| JString (s : string)
| JArray (xs : list json)
| JObject (kvs : list (string * json)).

(** ** A small exception monad for code that may [throw] *)

Inductive res (A : Type) :=
| Ok (a : A)
| Throw (err : string).
Arguments Ok {A} a.
Arguments Throw {A} err.

Global Instance res_ret : MRet res := fun A a => Ok a.
Global Instance res_bind : MBind res := fun A B f m =>
  match m with Ok a => f a | Throw e => Throw e end.

Definition is_throw {A} (m : res A) : bool :=
  match m with Throw _ => true | Ok _ => false end.

(** ** Repo codec *)

(** One character of the class [[A-Za-z0-9_-]]. *)
Definition valid_char (c : ascii) : bool :=
  let n := nat_of_ascii c in
  (Nat.leb 65 n && Nat.leb n 90) ||   (* A-Z *)
  (Nat.leb 97 n && Nat.leb n 122) ||  (* a-z *)
  (Nat.leb 48 n && Nat.leb n 57) ||   (* 0-9 *)
  Nat.eqb n 95 ||                     (* _ *)
  Nat.eqb n 45.                       (* - *)

Fixpoint all_valid_chars (s : string) : bool :=
  match s with
  | EmptyString => true
  | String c s' => valid_char c && all_valid_chars s'
  end.

(** [s.match(/^[A-Za-z0-9_-]+$/)] is non-null (no [m] flag: [^] and [$]
    anchor at the ends of the whole string). *)
Definition matches_validRe (s : string) : bool :=
  match s with
  | EmptyString => false
  | _ => all_valid_chars s
  end.

(** [function validateRepo(repo)] *)
Definition validateRepo (repo : Repo) : res unit :=
  if negb (matches_validRe (owner repo)) then Throw "Invalid repository owner"
  else if negb (matches_validRe (name repo)) then Throw "Invalid repository name"
  else Ok tt.

Definition slash : ascii := "/".

(** [x.split("/")]: the pieces between the occurrences of ["/"], empty
    pieces included; [("").split("/")] is [[""]]. *)
Fixpoint split_slash (s : string) : list string :=
  match s with
  | EmptyString => [""]
  | String c s' =>
      let rest := split_slash s' in
      if Ascii.eqb c slash then "" :: rest
      else match rest with
           | p :: ps => String c p :: ps
           | [] => [String c ""]
           end
  end.

(** [function repoStringToRepo(x)] *)
Definition repoStringToRepo (x : string) : res Repo :=
  match split_slash x with
  | [p0; p1] =>
      let repo := {| owner := p0; name := p1 |} in
      validateRepo repo;;
      Ok repo
  | _ => Throw "Invalid repo string"
  end.

(** The option token of [renderSelect]: [`${owner}/${name}`]. *)
Definition repoToString (r : Repo) : string :=
  owner r ++ String slash (name r).

(** ** The resolver: [loadStatus] *)

Definition REPO_KEY : string := "selectedRepository".

(** The Registry Client boundary. [fetch(REPO_REGISTRY_API)] either
    rejects (a thrown error at [await]) or yields a response with its [ok]
    flag; [decode] is the outcome of [await response.json()] followed by
    [fromJSON(json)], each of which may throw. *)
Record Response := mkResponse {
  ok : bool;
  decode : res (list Repo)
}.

(** The Preference Store read: [localStore.get(key, whenUnset)], which may
    throw. *)
Definition LocalStoreGet := string -> json -> res json.

(** Field lookup in a JSON object ([hasOwnProperty] and read). *)
Fixpoint json_field (k : string) (kvs : list (string * json)) : option json :=
  match kvs with
  | [] => None
  | (k', v) :: kvs' => if String.eqb k k' then Some v else json_field k kvs'
  end.

Definition json_is_string (s : string) (v : option json) : bool :=
  match v with Some (JString s') => String.eqb s s' | _ => false end.

(** [deepEqual(x, value)] (lodash [isEqual]) for a Repo [x], a plain
    object with the own keys [owner] and [name]: [value] must be a plain
    object with the same number of own keys, each of [x]'s keys present
    in it with an equal value. Any non-object is unequal. *)
Definition deepEqual (x : Repo) (value : json) : bool :=
  match value with
  | JObject kvs =>
      Nat.eqb (length kvs) 2 &&
      json_is_string (owner x) (json_field "owner" kvs) &&
      json_is_string (name x) (json_field "name" kvs)
  | _ => false
  end.

(** [Array.prototype.find]: the first element satisfying the predicate,
    [undefined] ([None]) if there is none. *)
Fixpoint find {A} (p : A -> bool) (xs : list A) : option A :=
  match xs with
  | [] => None
  | x :: xs' => if p x then Some x else find p xs'
  end.

(** [NullUtil.orElse(x, y)]: [x != null ? x : y]. *)
Definition orElse {A} (x : option A) (y : A) : A :=
  match x with Some a => a | None => y end.

(** lodash [compareMultiple] for the iteratees [r => r.owner] and
    [r => r.name]: the first criterion that differs decides, via
    [compareAscending] ([value > other] / [value < other]). *)
Definition compareRepos (a b : Repo) : comparison :=
  match String.compare (owner a) (owner b) with
  | Eq => String.compare (name a) (name b)
  | c => c
  end.

(** lodash [sortBy] breaks ties by the original index, so its result is
    the stable sort by [compareRepos]; [insertRepo] places [r] before the
    first element it is not greater than. *)
Fixpoint insertRepo (r : Repo) (xs : list Repo) : list Repo :=
  match xs with
  | [] => [r]
  | y :: ys =>
      match compareRepos r y with
      | Gt => y :: insertRepo r ys
      | _ => r :: y :: ys
      end
  end.

Fixpoint sortBy (xs : list Repo) : list Repo :=
  match xs with
  | [] => []
  | x :: xs' => insertRepo x (sortBy xs')
  end.

(** The body of the [try] block of [loadStatus]. The array read
    [availableRepos[availableRepos.length - 1]] happens after the length
    check, where the array has a first element [r0]; it is
    [List.last availableRepos r0]. *)
Definition loadStatus_try (fetch : res Response) (get : LocalStoreGet)
  : res Status :=
  response ← fetch;
  if negb (ok response) then mret FAILURE else
  availableRepos ← decode response;
  match availableRepos with
  | [] => mret NO_REPOS
  | r0 :: _ =>
      localStoreRepo ← get REPO_KEY JNull;
      let selectedRepo :=
        orElse (find (fun x => deepEqual x localStoreRepo) availableRepos)
               (List.last availableRepos r0) in
      let sortedRepos := sortBy availableRepos in
      mret (VALID sortedRepos selectedRepo)
  end.

(** [export async function loadStatus(localStore)]: any exception of the
    [try] block is caught and turned into [FAILURE]. *)
Definition loadStatus (fetch : res Response) (get : LocalStoreGet) : Status :=
  match loadStatus_try fetch get with
  | Ok status => status
  | Throw _ => FAILURE
  end.

(** ** The controller: [RepositorySelect] and [LocalStoreRepositorySelect] *)

(** What [localStore.set(REPO_KEY, repo)] stores, as [get] returns it. *)
Definition repoToJson (r : Repo) : json :=
  JObject [("owner", JString (owner r)); ("name", JString (name r))].

(** The component state [{status}], the local store's contents, and the
    calls made so far to the host's [props.onChange]. *)
Record Controller := mkController {
  status : Status;
  store : gmap string json;
  hostCalls : list Repo
}.

(** [localStore.get(key, whenUnset)] on the store's contents. *)
Definition localStoreGet (m : gmap string json) : LocalStoreGet :=
  fun key whenUnset => Ok (default whenUnset (m !! key)).

(** [localStore.set(key, value)]. *)
Definition localStoreSet (key : string) (value : json) (st : Controller)
  : Controller :=
  {| status := status st; store := <[key := value]> (store st);
     hostCalls := hostCalls st |}.

Definition setStatus (s : Status) (st : Controller) : Controller :=
  {| status := s; store := store st; hostCalls := hostCalls st |}.

Definition callHost (r : Repo) (st : Controller) : Controller :=
  {| status := status st; store := store st; hostCalls := hostCalls st ++ [r] |}.

(** [constructor]: [this.state = {status: {type: "LOADING"}}]. *)
Definition initController (m : gmap string json) : Controller :=
  {| status := LOADING; store := m; hostCalls := [] |}.

(** The continuation of [componentDidMount] once [loadStatus] resolved
    with [s]: [setState({status})], then notify the host if [VALID]. *)
Definition componentDidMount_then (s : Status) (st : Controller)
  : Controller :=
  let st1 := setStatus s st in
  match s with
  | VALID _ selectedRepo => callHost selectedRepo st1
  | _ => st1
  end.

(** [componentDidMount], with the registry fetch outcome [fetch]. *)
Definition componentDidMount (fetch : res Response) (st : Controller)
  : Controller :=
  componentDidMount_then (loadStatus fetch (localStoreGet (store st))) st.

(** [RepositorySelect.onChange(selectedRepo)]. *)
Definition RepositorySelect_onChange (selectedRepo : Repo) (st : Controller)
  : Controller :=
  let st1 :=
    match status st with
    | VALID availableRepos _ => setStatus (VALID availableRepos selectedRepo) st
    | _ => st
    end in
  callHost selectedRepo st1.

(** The [onChange] that [LocalStoreRepositorySelect.render] hands to its
    child: [this.props.onChange(repo)] (bound to
    [RepositorySelect.onChange]), then [localStore.set(REPO_KEY, repo)].
    This is the user-driven selection [onUserSelect]. *)
Definition onUserSelect (repo : Repo) (st : Controller) : Controller :=
  localStoreSet REPO_KEY (repoToJson repo) (RepositorySelect_onChange repo st).

(** ** The view: [PureRepositorySelect] *)

(** What [PureRepositorySelect.render] shows: the [<label>] with its
    prompt and, when a repo is selected, the [<select>] with its [value]
    token and the tokens of its [<option>]s (also their React keys); or an
    error [<span>] with its text. *)
Inductive View :=
| SelectLabel (select : option (string * list string))
| ErrorSpan (text : string).

(** [renderSelect(availableRepos, selectedRepo)]: the [<select>] is
    rendered only when [selectedRepo != null]. *)
Definition renderSelect (availableRepos : list Repo) (selectedRepo : option Repo) : View :=
  SelectLabel
    (match selectedRepo with
     | Some r => Some (repoToString r, map repoToString availableRepos)
     | None => None
     end).

(** [renderError(text)]. *)
Definition renderError (text : string) : View := ErrorSpan text.

(** [PureRepositorySelect.render()], by the status it is given. *)
Definition render (s : Status) : View :=
  match s with
  | LOADING => renderSelect [] None
  | VALID availableRepos selectedRepo => renderSelect availableRepos (Some selectedRepo)
  | NO_REPOS => renderError "Error: No repositories found."
  | FAILURE => renderError
      ("Error: Unable to load repository registry. " ++ "See console for details.")
  end.

(** The [<select>]'s [onChange] handler for the chosen token
    [e.target.value]: [repoStringToRepo] (whose error propagates to the UI),
    then the [onChange] prop, which [RepositorySelect.render] wires through
    [LocalStoreRepositorySelect] to [onUserSelect]. *)
Definition selectChange (repoString : string) (st : Controller) : res Controller :=
  repo ← repoStringToRepo repoString;
  mret (onUserSelect repo st).

(** A sequence of user selections, in order. *)
Definition userSelects (rs : list Repo) (st : Controller) : Controller :=
  fold_left (fun st r => onUserSelect r st) rs st.

(** ** Helpers for statements *)

Definition status_ok (s : Status) : Prop :=
  match s with
  | VALID availableRepos selectedRepo => In selectedRepo availableRepos
  | _ => True
  end.

(** [a] is not after [b] in the order of [sortBy]. *)
Definition repo_le (a b : Repo) : Prop := compareRepos a b <> Gt.

Fixpoint count_slash (s : string) : nat :=
  match s with
  | EmptyString => 0
  | String c s' => (if Ascii.eqb c slash then 1 else 0) + count_slash s'
  end.

Definition slash_free (s : string) : Prop := count_slash s = 0.

(** A successful fetch whose body decodes to [l]. *)
Definition fetched (l : list Repo) : res Response :=
  Ok {| ok := true; decode := Ok l |}.

(** A store read that returns [v]. *)
Definition reads (v : json) : LocalStoreGet := fun _ _ => Ok v.

(** ** Examples of the spec, evaluated *)

Definition rAZ := mkRepo "a" "z".
Definition rAA := mkRepo "a" "a".
Definition rBM := mkRepo "b" "m".

Example spec_example_fallback :
  loadStatus (fetched [rAZ; rAA; rBM]) (reads JNull) = VALID [rAA; rAZ; rBM] rBM.
Proof. reflexivity. Qed.

Example spec_example_pref :
  loadStatus (fetched [rAZ; rAA; rBM]) (reads (repoToJson rAA)) = VALID [rAA; rAZ; rBM] rAA.
Proof. reflexivity. Qed.

Example spec_example_empty : loadStatus (fetched []) (reads JNull) = NO_REPOS.
Proof. reflexivity. Qed.

Example spec_example_notok :
  loadStatus (Ok {| ok := false; decode := Ok [rAZ] |}) (reads JNull) = FAILURE.
Proof. reflexivity. Qed.

Example parse_example : repoStringToRepo "sourcecred/example-git_1" = Ok (mkRepo "sourcecred" "example-git_1").
Proof. reflexivity. Qed.

Example parse_example_bad : is_throw (repoStringToRepo "a/b/c") = true /\ is_throw (repoStringToRepo "a/") = true /\ is_throw (repoStringToRepo "a b/c") = true.
Proof. repeat split; reflexivity. Qed.

(** ** Lemmas about the sort *)

Lemma compareRepos_antisym a b : compareRepos a b = CompOpp (compareRepos b a).
Proof.
  unfold compareRepos. rewrite (String.compare_antisym (owner a)).
  destruct (String.compare (owner b) (owner a)); simpl; try reflexivity.
  apply String.compare_antisym.
Qed.

Lemma repo_le_flip a b : compareRepos a b = Gt -> repo_le b a.
Proof.
  unfold repo_le. rewrite (compareRepos_antisym b a). intros ->. discriminate.
Qed.

Lemma insertRepo_sorted r xs : Sorted repo_le xs -> Sorted repo_le (insertRepo r xs).
Proof.
  induction xs as [|y ys IH]; intros Hs; simpl.
  - repeat constructor.
  - destruct (compareRepos r y) eqn:E;
      try (constructor; [exact Hs | constructor; unfold repo_le; rewrite E; discriminate]).
    apply Sorted_inv in Hs as [Hys Hhd].
    constructor; [apply IH, Hys|].
    destruct ys as [|z zs]; simpl.
    + constructor. apply repo_le_flip, E.
    + destruct (compareRepos r z); constructor;
        solve [apply repo_le_flip, E | inversion Hhd; assumption].
Qed.

Lemma sortBy_sorted xs : Sorted repo_le (sortBy xs).
Proof. induction xs; simpl; [constructor | apply insertRepo_sorted; assumption]. Qed.

Lemma insertRepo_In x r xs : In x (insertRepo r xs) <-> x = r \/ In x xs.
Proof.
  induction xs as [|y ys IH]; simpl; [intuition congruence|].
  destruct (compareRepos r y); simpl; rewrite ?IH; intuition congruence.
Qed.

Lemma sortBy_In x xs : In x (sortBy xs) <-> In x xs.
Proof.
  induction xs as [|y ys IH]; simpl; [tauto|].
  rewrite insertRepo_In, IH. intuition.
Qed.

Lemma string_compare_refl s : String.compare s s = Eq.
Proof.
  pose proof (String.compare_antisym s s) as H.
  destruct (String.compare s s); simpl in H; congruence.
Qed.

(** [repo_le] is the order "by owner, then by name". *)
Lemma repo_le_owner_name a b :
  repo_le a b <->
  String.compare (owner a) (owner b) = Lt \/
  (owner a = owner b /\ String.compare (name a) (name b) <> Gt).
Proof.
  unfold repo_le, compareRepos.
  destruct (String.compare (owner a) (owner b)) eqn:E.
  - apply String.compare_eq_iff in E. split; [tauto|]. intros [H|[_ H]]; [discriminate|exact H].
  - split; [tauto|]. discriminate.
  - split; [intros H; congruence|]. intros [H|[H _]]; [discriminate|].
    rewrite H, string_compare_refl in E. discriminate.
Qed.

(** ** Lemmas about [find] and [List.last] *)

Lemma find_In {A} (p : A -> bool) xs x : find p xs = Some x -> In x xs.
Proof.
  induction xs as [|y ys IH]; simpl; [discriminate|].
  destruct (p y); [intros [= ->]; left; reflexivity | right; auto].
Qed.

Lemma find_first {A} (p : A -> bool) xs x :
  find p xs = Some x ->
  p x = true /\ exists pre post, xs = (pre ++ x :: post)%list /\ Forall (fun y => p y = false) pre.
Proof.
  induction xs as [|y ys IH]; simpl; [discriminate|].
  destruct (p y) eqn:E.
  - intros [= <-]. split; [exact E|]. exists [], ys. split; [reflexivity|constructor].
  - intros H. destruct (IH H) as [Hx [pre [post [-> Hpre]]]].
    split; [exact Hx|]. exists (y :: pre), post. split; [reflexivity|].
    constructor; assumption.
Qed.

Lemma find_None {A} (p : A -> bool) xs :
  (forall x, In x xs -> p x = false) -> find p xs = None.
Proof.
  induction xs as [|y ys IH]; simpl; intros H; [reflexivity|].
  rewrite (H y (or_introl eq_refl)). apply IH. intros x Hx. apply H. right. exact Hx.
Qed.

Lemma find_exists {A} (p : A -> bool) xs :
  (exists x, In x xs /\ p x = true) -> exists x, find p xs = Some x.
Proof.
  induction xs as [|y ys IH]; simpl; intros [x [Hin Hp]]; [contradiction|].
  destruct (p y) eqn:E; [eauto|].
  destruct Hin as [->|Hin]; [congruence|]. apply IH. eauto.
Qed.

Lemma last_In (xs : list Repo) d : xs <> [] -> In (List.last xs d) xs.
Proof.
  induction xs as [|y ys IH]; intros H; [congruence|].
  destruct ys as [|z zs]; simpl; [left; reflexivity|].
  right. apply IH. discriminate.
Qed.

Lemma last_default (xs : list Repo) d d' : xs <> [] -> List.last xs d = List.last xs d'.
Proof.
  induction xs as [|y ys IH]; intros H; [congruence|].
  destruct ys as [|z zs]; [reflexivity|]. apply IH. discriminate.
Qed.

(** ** Unfolding [loadStatus] *)

Lemma loadStatus_cons r0 rest (get : LocalStoreGet) v :
  get REPO_KEY JNull = Ok v ->
  loadStatus (fetched (r0 :: rest)) get =
  VALID (sortBy (r0 :: rest))
        (orElse (find (fun x => deepEqual x v) (r0 :: rest)) (List.last (r0 :: rest) r0)).
Proof.
  intros Hget. unfold loadStatus, loadStatus_try, fetched.
  unfold mbind, res_bind, mret, res_ret. simpl. rewrite Hget. reflexivity.
Qed.

Lemma loadStatus_nonempty (l : list Repo) (get : LocalStoreGet) v d :
  l <> [] -> get REPO_KEY JNull = Ok v ->
  loadStatus (fetched l) get =
  VALID (sortBy l) (orElse (find (fun x => deepEqual x v) l) (List.last l d)).
Proof.
  destruct l as [|r0 rest]; intros Hne Hget; [congruence|].
  rewrite (loadStatus_cons r0 rest get v Hget).
  rewrite (last_default (r0 :: rest) r0 d) by discriminate. reflexivity.
Qed.

Lemma loadStatus_VALID_inv fetch (get : LocalStoreGet) availableRepos selectedRepo :
  loadStatus fetch get = VALID availableRepos selectedRepo ->
  exists l v, l <> [] /\ fetch = fetched l /\ get REPO_KEY JNull = Ok v /\
    availableRepos = sortBy l /\
    forall d, selectedRepo = orElse (find (fun x => deepEqual x v) l) (List.last l d).
Proof.
  unfold loadStatus, loadStatus_try, mbind, res_bind, mret, res_ret.
  destruct fetch as [[o dec]|e]; simpl; [|discriminate].
  destruct o; simpl; [|discriminate].
  destruct dec as [l|e]; simpl; [|discriminate].
  destruct l as [|r0 rest]; [discriminate|].
  destruct (get REPO_KEY JNull) as [v|e] eqn:Hg; [|discriminate].
  intros [= <- <-]. exists (r0 :: rest), v.
  repeat split; try discriminate; try assumption.
  intros d. f_equal. destruct rest as [|r1 rest']; [reflexivity|].
  transitivity (List.last (r1 :: rest') d); [apply last_default; discriminate|reflexivity].
Qed.

Lemma loadStatus_status_ok fetch (get : LocalStoreGet) : status_ok (loadStatus fetch get).
Proof.
  destruct (loadStatus fetch get) as [|a sel| |] eqn:E; simpl; trivial.
  apply loadStatus_VALID_inv in E as (l & v & Hne & _ & _ & -> & Hsel).
  rewrite (Hsel sel). apply sortBy_In.
  destruct (find (fun x => deepEqual x v) l) eqn:Ef; simpl.
  - eapply find_In; eassumption.
  - apply last_In, Hne.
Qed.

Lemma deepEqual_repoToJson x p : deepEqual x (repoToJson p) = true <-> x = p.
Proof.
  destruct x as [xo xn], p as [po pn]; unfold deepEqual, repoToJson; simpl.
  rewrite !andb_true_iff, !String.eqb_eq. split.
  - intros [-> ->]. reflexivity.
  - intros [= -> ->]. auto.
Qed.

Lemma status_componentDidMount_then s st : status (componentDidMount_then s st) = s.
Proof. destruct s; reflexivity. Qed.

Lemma Sorted_weaken {A} (R R' : A -> A -> Prop) (xs : list A) :
  (forall a b, R a b -> R' a b) -> Sorted R xs -> Sorted R' xs.
Proof.
  intros HR Hs. induction Hs as [|y ys Hs IH Hhd]; constructor; [exact IH|].
  destruct Hhd; constructor; auto.
Qed.

(** ** Lemmas about the codec *)

Lemma split_slash_free s : slash_free s -> split_slash s = [s].
Proof.
  unfold slash_free. induction s as [|c s IH]; simpl; intros H; [reflexivity|].
  destruct (Ascii.eqb c slash); simpl in H; [lia|].
  rewrite IH by exact H. reflexivity.
Qed.

Lemma split_slash_app o n :
  slash_free o -> split_slash (o ++ String slash n) = o :: split_slash n.
Proof.
  unfold slash_free. induction o as [|c o IH]; simpl; intros H; [reflexivity|].
  destruct (Ascii.eqb c slash); simpl in H; [lia|].
  rewrite IH by exact H. reflexivity.
Qed.

Lemma split_slash_nonempty s : split_slash s <> [].
Proof.
  destruct s as [|c s]; simpl; [discriminate|].
  destruct (Ascii.eqb c slash); [discriminate|].
  destruct (split_slash s); discriminate.
Qed.

Lemma split_slash_length s : length (split_slash s) = S (count_slash s).
Proof.
  induction s as [|c s IH]; simpl; [reflexivity|].
  destruct (Ascii.eqb c slash); simpl; [lia|].
  pose proof (split_slash_nonempty s).
  destruct (split_slash s); simpl in *; [congruence|lia].
Qed.

Lemma split_slash_pieces s : Forall slash_free (split_slash s).
Proof.
  unfold slash_free. induction s as [|c s IH]; simpl; [repeat constructor|].
  destruct (Ascii.eqb c slash) eqn:E; [constructor; [reflexivity|exact IH]|].
  destruct (split_slash s) as [|p ps]; inversion IH; subst;
    constructor; simpl; rewrite ?E; auto.
Qed.

Lemma split_slash_one s p : split_slash s = [p] -> s = p.
Proof.
  revert p. induction s as [|c s IH]; simpl; intros p H.
  - congruence.
  - destruct (Ascii.eqb c slash) eqn:E.
    + pose proof (split_slash_nonempty s). destruct (split_slash s); congruence.
    + destruct (split_slash s) as [|q qs] eqn:Es.
      * exfalso. exact (split_slash_nonempty s Es).
      * injection H as <- ->. rewrite (IH q eq_refl). reflexivity.
Qed.

Lemma split_slash_two s p0 p1 : split_slash s = [p0; p1] -> s = p0 ++ String slash p1.
Proof.
  revert p0. induction s as [|c s IH]; simpl; intros p0 H.
  - congruence.
  - destruct (Ascii.eqb c slash) eqn:E.
    + apply Ascii.eqb_eq in E. subst c. injection H as <- Hs.
      rewrite (split_slash_one s p1 Hs). reflexivity.
    + destruct (split_slash s) as [|q qs] eqn:Es;
        [exfalso; exact (split_slash_nonempty s Es)|].
      injection H as <- ->. rewrite (IH q eq_refl). reflexivity.
Qed.

Lemma valid_chars_slash_free s : all_valid_chars s = true -> slash_free s.
Proof.
  unfold slash_free. induction s as [|c s IH]; simpl; [reflexivity|].
  intros [Hc Hs]%andb_prop. rewrite (IH Hs).
  destruct (Ascii.eqb c slash) eqn:E; [|reflexivity].
  apply Ascii.eqb_eq in E. subst c. discriminate.
Qed.

Lemma matches_validRe_iff s :
  matches_validRe s = true <-> s <> "" /\ all_valid_chars s = true.
Proof.
  destruct s as [|c s]; simpl; [split; [discriminate|tauto]|].
  split; [intros H; split; [discriminate|exact H] | tauto].
Qed.

Lemma validateRepo_ok repo :
  validateRepo repo = Ok tt <->
  matches_validRe (owner repo) = true /\ matches_validRe (name repo) = true.
Proof.
  unfold validateRepo.
  destruct (matches_validRe (owner repo)), (matches_validRe (name repo));
    simpl; intuition congruence.
Qed.

Lemma repoStringToRepo_two x p0 p1 :
  split_slash x = [p0; p1] ->
  repoStringToRepo x =
    match validateRepo {| owner := p0; name := p1 |} with
    | Ok _ => Ok {| owner := p0; name := p1 |}
    | Throw e => Throw e
    end.
Proof. intros H. unfold repoStringToRepo. rewrite H. reflexivity. Qed.

Lemma repoStringToRepo_not_two x :
  length (split_slash x) <> 2 -> repoStringToRepo x = Throw "Invalid repo string".
Proof.
  unfold repoStringToRepo. destruct (split_slash x) as [|p0 [|p1 [|p2 ps]]];
    simpl; intros H; congruence.
Qed.

Lemma matches_validRe_false s :
  matches_validRe s = false -> s = "" \/ all_valid_chars s = false.
Proof. destruct s; simpl; auto. Qed.

Lemma all_valid_chars_false s : all_valid_chars s = false -> matches_validRe s = false.
Proof. destruct s; simpl; auto. Qed.

Lemma split_slash_one_slash o n :
  slash_free o -> slash_free n -> split_slash (o ++ String slash n) = [o; n].
Proof. intros Ho Hn. rewrite split_slash_app, split_slash_free; auto. Qed.

Lemma count_slash_one tok :
  count_slash tok = 1 ->
  exists o n, split_slash tok = [o; n] /\ tok = o ++ String slash n /\
              slash_free o /\ slash_free n.
Proof.
  intros H. pose proof (split_slash_length tok) as Hl. rewrite H in Hl.
  pose proof (split_slash_pieces tok) as Hp.
  destruct (split_slash tok) as [|o [|n [|x xs]]] eqn:E; simpl in Hl; try lia.
  inversion Hp as [|? ? Ho Hp']; inversion Hp'; subst.
  exists o, n. repeat split; auto. apply split_slash_two, E.
Qed.

(** "Ascending by owner, then by name" between neighbours of a list. *)
Definition owner_name_le (a b : Repo) : Prop :=
  String.compare (owner a) (owner b) = Lt \/
  (owner a = owner b /\ String.compare (name a) (name b) <> Gt).

(** * Claims *)

(** C1: for a successful fetch with a non-empty decoded list [l], when no
    preference is stored (the read returns the default [null]) or no
    element of [l] is [deepEqual] to the stored value, the selected repo
    is the last element of [l] in its original order. *)
Theorem loadStatus_fallback_last (l : list Repo) (get : LocalStoreGet) (v : json) (d : Repo)
  (Hne : l <> []) (Hget : get REPO_KEY JNull = Ok v)
  (Hnone : v = JNull \/ forall x, In x l -> deepEqual x v = false) :
  loadStatus (fetched l) get = VALID (sortBy l) (List.last l d).
Proof.
  rewrite (loadStatus_nonempty l get v d Hne Hget).
  rewrite find_None; [reflexivity|].
  destruct Hnone as [->|H]; [intros [] _; reflexivity | exact H].
Qed.

(** Witness of C1: the original-order last element [{a,a}] is selected,
    while the last element of the sorted list is [{b,m}]. *)
Lemma loadStatus_fallback_last_witness :
  loadStatus (fetched [rBM; rAA]) (reads JNull) = VALID [rAA; rBM] rAA /\
  List.last (sortBy [rBM; rAA]) rAA = rBM.
Proof.
  split; [|reflexivity].
  rewrite (loadStatus_fallback_last [rBM; rAA] (reads JNull) JNull rAA
             ltac:(discriminate) eq_refl (or_introl eq_refl)).
  reflexivity.
Defined.

(** C2: when the stored preference [v] is [deepEqual] to some element of
    the non-empty decoded list [l], the selected repo is the first such
    element of [l] in its original order. *)
Theorem loadStatus_pref_first_match (l : list Repo) (get : LocalStoreGet) (v : json)
  (Hget : get REPO_KEY JNull = Ok v)
  (Hm : exists x, In x l /\ deepEqual x v = true) :
  exists x pre post,
    l = (pre ++ x :: post)%list /\ deepEqual x v = true /\
    Forall (fun y => deepEqual y v = false) pre /\
    loadStatus (fetched l) get = VALID (sortBy l) x.
Proof.
  assert (Hne : l <> []) by (destruct Hm as [y [Hy _]]; intros ->; contradiction).
  destruct (find_exists _ _ Hm) as [x Hx].
  destruct (find_first _ _ _ Hx) as [Hxv [pre [post [Hl Hpre]]]].
  exists x, pre, post. repeat split; try assumption.
  rewrite (loadStatus_nonempty l get v x Hne Hget), Hx. reflexivity.
Qed.

Lemma loadStatus_pref_first_match_witness :
  (exists x, In x [rBM; rAA; rAZ] /\ deepEqual x (repoToJson rAA) = true) /\
  exists x pre post,
    [rBM; rAA; rAZ] = (pre ++ x :: post)%list /\ deepEqual x (repoToJson rAA) = true /\
    Forall (fun y => deepEqual y (repoToJson rAA) = false) pre /\
    loadStatus (fetched [rBM; rAA; rAZ]) (reads (repoToJson rAA)) =
      VALID (sortBy [rBM; rAA; rAZ]) x.
Proof.
  assert (Hm : exists x, In x [rBM; rAA; rAZ] /\ deepEqual x (repoToJson rAA) = true)
    by (exists rAA; split; [right; left; reflexivity | reflexivity]).
  split; [exact Hm|].
  exact (loadStatus_pref_first_match [rBM; rAA; rAZ] (reads (repoToJson rAA))
           (repoToJson rAA) eq_refl Hm).
Defined.

(** C3 (counterexample): with the status still [LOADING], a user
    selection does write the local store. *)
Lemma onUserSelect_writes_while_loading :
  status (initController ∅) = LOADING /\
  store (onUserSelect rAA (initController ∅)) <> store (initController ∅).
Proof.
  split; [reflexivity|]. simpl. intros H.
  apply (f_equal (fun m : gmap string json => m !! REPO_KEY)) in H.
  rewrite lookup_insert_eq, lookup_empty in H. discriminate.
Qed.

(** C3 (amended): every user selection writes [repo] to the local store
    under [REPO_KEY], whatever the status; only the replacement of
    [selectedRepo] depends on the status being [VALID]. *)
Theorem onUserSelect_store_write (repo : Repo) (st : Controller) :
  store (onUserSelect repo st) = <[REPO_KEY := repoToJson repo]> (store st) /\
  status (onUserSelect repo st) =
    match status st with
    | VALID availableRepos _ => VALID availableRepos repo
    | s => s
    end.
Proof. destruct st as [[] m h]; split; reflexivity. Qed.

(** C4 (counterexample): a user selection of a repo outside
    [availableRepos] yields a [VALID] status whose [selectedRepo] is not a
    member of [availableRepos]. *)
Lemma onUserSelect_breaks_membership :
  status_ok (status (mkController (VALID [rAA] rAA) ∅ [])) /\
  ~ status_ok (status (onUserSelect rBM (mkController (VALID [rAA] rAA) ∅ []))).
Proof.
  split; [left; reflexivity|]. simpl. intros [H|H]; [discriminate|exact H].
Qed.

(** C4 (amended): every status produced by [loadStatus] (and installed by
    [componentDidMount]) has its [selectedRepo] in [availableRepos]; a user
    selection keeps this when the selected repo is one of
    [availableRepos]. *)
Theorem status_membership :
  (forall fetch (get : LocalStoreGet), status_ok (loadStatus fetch get)) /\
  (forall fetch st, status_ok (status (componentDidMount fetch st))) /\
  (forall repo st, status_ok (status st) ->
     (forall availableRepos selectedRepo,
        status st = VALID availableRepos selectedRepo -> In repo availableRepos) ->
     status_ok (status (onUserSelect repo st))).
Proof.
  split; [exact loadStatus_status_ok|]. split.
  - intros fetch st. unfold componentDidMount.
    rewrite status_componentDidMount_then. apply loadStatus_status_ok.
  - intros repo [[|a sel| |] m h] _ Hin; simpl; trivial.
    exact (Hin a sel eq_refl).
Qed.

(** C5: [loadStatus] always returns a status (never [LOADING]): a rejected
    fetch, a non-ok response, a decode error, a throwing store read and any
    other exception of the [try] block all give [FAILURE]. *)
Theorem loadStatus_total_failure :
  (forall e (get : LocalStoreGet), loadStatus (Throw e) get = FAILURE) /\
  (forall dec (get : LocalStoreGet), loadStatus (Ok {| ok := false; decode := dec |}) get = FAILURE) /\
  (forall e (get : LocalStoreGet), loadStatus (Ok {| ok := true; decode := Throw e |}) get = FAILURE) /\
  (forall l (get : LocalStoreGet) e, l <> [] -> get REPO_KEY JNull = Throw e ->
     loadStatus (fetched l) get = FAILURE) /\
  (forall fetch (get : LocalStoreGet) e, loadStatus_try fetch get = Throw e ->
     loadStatus fetch get = FAILURE) /\
  (forall fetch (get : LocalStoreGet),
     loadStatus fetch get = FAILURE \/ loadStatus fetch get = NO_REPOS \/
     exists availableRepos selectedRepo,
       loadStatus fetch get = VALID availableRepos selectedRepo).
Proof.
  unfold loadStatus, loadStatus_try, mbind, res_bind, mret, res_ret.
  repeat split; try reflexivity.
  - intros [|r0 rest] get e Hne Hget; [congruence|]. simpl. rewrite Hget. reflexivity.
  - intros fetch get e ->. reflexivity.
  - intros fetch get.
    destruct fetch as [[[] [[|r0 rest]|e]]|e]; simpl; auto.
    destruct (get REPO_KEY JNull); simpl; eauto.
Qed.

(** C6: the [availableRepos] of any [VALID] status returned by
    [loadStatus] are ascending by owner, then by name. *)
Theorem loadStatus_sorted fetch (get : LocalStoreGet) availableRepos selectedRepo
  (H : loadStatus fetch get = VALID availableRepos selectedRepo) :
  Sorted owner_name_le availableRepos.
Proof.
  apply loadStatus_VALID_inv in H as (l & v & _ & _ & _ & -> & _).
  apply (Sorted_weaken repo_le); [|apply sortBy_sorted].
  intros a b Hab. apply repo_le_owner_name, Hab.
Qed.

Lemma loadStatus_sorted_witness :
  loadStatus (fetched [rBM; rAZ; rAA]) (reads JNull) = VALID [rAA; rAZ; rBM] rAA /\
  Sorted owner_name_le [rAA; rAZ; rBM].
Proof.
  split; [reflexivity|].
  exact (loadStatus_sorted (fetched [rBM; rAZ; rAA]) (reads JNull) [rAA; rAZ; rBM] rAA
           eq_refl).
Defined.

(** C7: for a repo whose owner and name match [^[A-Za-z0-9_-]+$],
    parsing its option token gives the repo back. *)
Theorem repoStringToRepo_roundtrip (r : Repo)
  (Ho : matches_validRe (owner r) = true) (Hn : matches_validRe (name r) = true) :
  repoStringToRepo (repoToString r) = Ok r.
Proof.
  pose proof (proj2 (proj1 (matches_validRe_iff _) Ho)) as Ho'.
  pose proof (proj2 (proj1 (matches_validRe_iff _) Hn)) as Hn'.
  unfold repoToString.
  rewrite (repoStringToRepo_two _ (owner r) (name r))
    by (apply split_slash_one_slash; apply valid_chars_slash_free; assumption).
  rewrite (proj2 (validateRepo_ok {| owner := owner r; name := name r |})) by auto.
  destruct r; reflexivity.
Qed.

Lemma repoStringToRepo_roundtrip_witness :
  repoToString (mkRepo "sourcecred" "example-git_1") = "sourcecred/example-git_1" /\
  repoStringToRepo (repoToString (mkRepo "sourcecred" "example-git_1")) =
    Ok (mkRepo "sourcecred" "example-git_1").
Proof.
  split; [reflexivity|].
  exact (repoStringToRepo_roundtrip (mkRepo "sourcecred" "example-git_1") eq_refl eq_refl).
Defined.

(** C8: [repoStringToRepo tok] throws exactly when [tok] has no ["/"] or
    more than one, or one of its two segments is empty or has a character
    outside [[A-Za-z0-9_-]]; otherwise it returns the two segments as
    owner and name. *)
Theorem repoStringToRepo_fails_iff (tok : string) :
  (is_throw (repoStringToRepo tok) = true <->
     count_slash tok <> 1 \/
     exists o n, tok = o ++ String slash n /\ slash_free o /\ slash_free n /\
       (o = "" \/ n = "" \/ all_valid_chars o = false \/ all_valid_chars n = false)) /\
  (forall o n, tok = o ++ String slash n -> slash_free o -> slash_free n ->
     o <> "" -> n <> "" -> all_valid_chars o = true -> all_valid_chars n = true ->
     repoStringToRepo tok = Ok {| owner := o; name := n |}).
Proof.
  split; [split|].
  - intros H. destruct (Nat.eq_dec (count_slash tok) 1) as [E|E]; [right|left; exact E].
    destruct (count_slash_one tok E) as (o & n & Hs & Htok & Ho & Hn).
    exists o, n. repeat split; try assumption.
    rewrite (repoStringToRepo_two _ o n Hs) in H. unfold validateRepo in H. simpl in H.
    destruct (matches_validRe o) eqn:Eo.
    + destruct (matches_validRe n) eqn:En; simpl in H; [discriminate|].
      destruct (matches_validRe_false n En); tauto.
    + destruct (matches_validRe_false o Eo); tauto.
  - intros [E|(o & n & -> & Ho & Hn & Hbad)].
    + rewrite repoStringToRepo_not_two; [reflexivity|].
      rewrite split_slash_length. lia.
    + rewrite (repoStringToRepo_two _ o n (split_slash_one_slash o n Ho Hn)).
      unfold validateRepo; simpl.
      destruct Hbad as [->|[->|[H|H]]].
      * reflexivity.
      * destruct (matches_validRe o); reflexivity.
      * rewrite (all_valid_chars_false o H). reflexivity.
      * rewrite (all_valid_chars_false n H). destruct (matches_validRe o); reflexivity.
  - intros o n -> Ho Hn Hone Hnne Hvo Hvn.
    rewrite (repoStringToRepo_two _ o n (split_slash_one_slash o n Ho Hn)).
    rewrite (proj2 (validateRepo_ok {| owner := o; name := n |}));
      [reflexivity | simpl; rewrite !matches_validRe_iff; auto].
Qed.

(** C9: after [loadStatus] resolves, the host's [onChange] is called once
    with the selected repo if the status is [VALID] and not at all
    otherwise; every user selection calls it with the selected repo,
    whatever the status. *)
Theorem host_onChange_calls :
  (forall fetch st,
     hostCalls (componentDidMount fetch st) =
       (hostCalls st ++
        match loadStatus fetch (localStoreGet (store st)) with
        | VALID _ selectedRepo => [selectedRepo]
        | _ => []
        end)%list) /\
  (forall s st,
     hostCalls (componentDidMount_then s st) =
       (hostCalls st ++ match s with VALID _ selectedRepo => [selectedRepo] | _ => [] end)%list) /\
  (forall repo st, hostCalls (onUserSelect repo st) = (hostCalls st ++ [repo])%list).
Proof.
  assert (Hthen : forall s st,
     hostCalls (componentDidMount_then s st) =
       (hostCalls st ++ match s with VALID _ selectedRepo => [selectedRepo] | _ => [] end)%list)
    by (intros [] st; simpl; rewrite ?app_nil_r; reflexivity).
  split; [intros fetch st; apply Hthen|]. split; [exact Hthen|].
  intros repo [[] m h]; reflexivity.
Qed.

(** C10: whatever the local store holds under [REPO_KEY] (nothing, a
    value of any shape, or a repo absent from the registry), a successful
    fetch of a non-empty list gives [VALID], selecting the first element
    [deepEqual] to the stored value, else the last element. *)
Theorem loadStatus_any_stored_value (m : gmap string json) (l : list Repo) (d : Repo)
  (Hne : l <> []) :
  loadStatus (fetched l) (localStoreGet m) =
    VALID (sortBy l)
      (orElse (find (fun x => deepEqual x (default JNull (m !! REPO_KEY))) l)
              (List.last l d)).
Proof. apply loadStatus_nonempty; [exact Hne | reflexivity]. Qed.

Lemma loadStatus_any_stored_value_witness :
  loadStatus (fetched [rAZ; rAA]) (localStoreGet {[REPO_KEY := JString "not a repo"]}) =
    VALID [rAA; rAZ] rAA /\
  loadStatus (fetched [rAZ; rAA]) (localStoreGet {[REPO_KEY := JString "not a repo"]}) =
    VALID (sortBy [rAZ; rAA])
      (orElse (find (fun x => deepEqual x
                 (default JNull (({[REPO_KEY := JString "not a repo"]} : gmap string json) !! REPO_KEY)))
                 [rAZ; rAA])
              (List.last [rAZ; rAA] rAZ)).
Proof.
  split.
  - rewrite (loadStatus_any_stored_value {[REPO_KEY := JString "not a repo"]} [rAZ; rAA] rAZ
               ltac:(discriminate)).
    rewrite lookup_singleton_eq. reflexivity.
  - exact (loadStatus_any_stored_value {[REPO_KEY := JString "not a repo"]} [rAZ; rAA] rAZ
             ltac:(discriminate)).
Defined.

(** ** Lemmas for the view and the selection sequences *)

Lemma string_app_cancel_l (a b c : string) : a ++ b = a ++ c -> b = c.
Proof. induction a as [|x a IH]; simpl; [auto|]. intros [= H]. apply IH, H. Qed.

Lemma repoToString_inj r1 r2 :
  slash_free (owner r1) -> slash_free (owner r2) ->
  repoToString r1 = repoToString r2 -> r1 = r2.
Proof.
  destruct r1 as [o1 n1], r2 as [o2 n2]; unfold repoToString; simpl.
  intros H1 H2 H.
  pose proof (f_equal split_slash H) as Hs.
  rewrite !split_slash_app in Hs by assumption. injection Hs as -> _.
  apply string_app_cancel_l in H. injection H as ->. reflexivity.
Qed.

Lemma NoDup_map_on {A B} (f : A -> B) (xs : list A) :
  (forall x y, In x xs -> In y xs -> f x = f y -> x = y) ->
  List.NoDup xs -> List.NoDup (map f xs).
Proof.
  intros Hinj Hnd. induction Hnd as [|x xs Hx Hnd IH]; simpl; constructor.
  - intros Hm. apply in_map_iff in Hm as (y & Hfy & Hy).
    rewrite (Hinj y x) in Hy; [contradiction | right; exact Hy | left; reflexivity | exact Hfy].
  - apply IH. intros a b Ha Hb. apply Hinj; right; assumption.
Qed.

Lemma insertRepo_perm r xs : Permutation (insertRepo r xs) (r :: xs).
Proof.
  induction xs as [|y ys IH]; simpl; [reflexivity|].
  destruct (compareRepos r y); try reflexivity.
  rewrite IH. apply perm_swap.
Qed.

Lemma sortBy_perm xs : Permutation (sortBy xs) xs.
Proof.
  induction xs as [|x xs IH]; simpl; [reflexivity|].
  rewrite insertRepo_perm, IH. reflexivity.
Qed.

Lemma sortBy_of_sorted xs : Sorted repo_le xs -> sortBy xs = xs.
Proof.
  induction xs as [|x xs IH]; intros Hs; simpl; [reflexivity|].
  apply Sorted_inv in Hs as [Hxs Hhd]. rewrite (IH Hxs).
  destruct xs as [|y ys]; simpl; [reflexivity|].
  inversion Hhd as [|? ? Hle]; subst. unfold repo_le in Hle.
  destruct (compareRepos x y); congruence.
Qed.

Lemma loadStatus_not_loading fetch (get : LocalStoreGet) : loadStatus fetch get <> LOADING.
Proof.
  unfold loadStatus, loadStatus_try, mbind, res_bind, mret, res_ret.
  destruct fetch as [[[] [[|r0 rest]|e]]|e]; simpl; try discriminate.
  destruct (get REPO_KEY JNull); discriminate.
Qed.

Lemma onUserSelect_status repo st :
  status (onUserSelect repo st) =
    match status st with VALID a _ => VALID a repo | s => s end.
Proof. destruct st as [[] m h]; reflexivity. Qed.

Lemma onUserSelect_store repo st :
  store (onUserSelect repo st) = <[REPO_KEY := repoToJson repo]> (store st).
Proof. destruct st as [[] m h]; reflexivity. Qed.

Lemma onUserSelect_hostCalls repo st :
  hostCalls (onUserSelect repo st) = (hostCalls st ++ [repo])%list.
Proof. destruct st as [[] m h]; reflexivity. Qed.

Lemma userSelects_status rs st :
  status (userSelects rs st) =
    match status st with VALID a s => VALID a (List.last rs s) | s => s end.
Proof.
  revert st. induction rs as [|r rs IH]; intros st; simpl.
  - destruct (status st); reflexivity.
  - rewrite IH, onUserSelect_status. destruct (status st); try reflexivity.
    destruct rs as [|r' rs']; [reflexivity|].
    f_equal. apply last_default. discriminate.
Qed.

Lemma userSelects_store rs st :
  store (userSelects rs st) =
    match rs with
    | [] => store st
    | r :: _ => <[REPO_KEY := repoToJson (List.last rs r)]> (store st)
    end.
Proof.
  revert st. induction rs as [|r rs IH]; intros st; simpl; [reflexivity|].
  rewrite IH, onUserSelect_store. destruct rs as [|r' rs']; [reflexivity|].
  rewrite insert_insert_eq. do 2 f_equal.
  apply last_default. discriminate.
Qed.

Lemma userSelects_hostCalls rs st :
  hostCalls (userSelects rs st) = (hostCalls st ++ rs)%list.
Proof.
  revert st. induction rs as [|r rs IH]; intros st; simpl.
  - rewrite app_nil_r. reflexivity.
  - rewrite IH, onUserSelect_hostCalls, <- app_assoc. reflexivity.
Qed.

Lemma componentDidMount_parts fetch st :
  let s := loadStatus fetch (localStoreGet (store st)) in
  status (componentDidMount fetch st) = s /\
  store (componentDidMount fetch st) = store st /\
  hostCalls (componentDidMount fetch st) =
    (hostCalls st ++ match s with VALID _ sel => [sel] | _ => [] end)%list.
Proof.
  unfold componentDidMount. simpl.
  destruct (loadStatus fetch (localStoreGet (store st))); simpl;
    rewrite ?app_nil_r; auto.
Qed.

Lemma parse_repoToString r :
  matches_validRe (owner r) = true -> matches_validRe (name r) = true ->
  repoStringToRepo (repoToString r) = Ok r.
Proof.
  intros Ho Hn.
  pose proof (proj2 (proj1 (matches_validRe_iff _) Ho)) as Ho'.
  pose proof (proj2 (proj1 (matches_validRe_iff _) Hn)) as Hn'.
  unfold repoToString.
  rewrite (repoStringToRepo_two _ (owner r) (name r))
    by (apply split_slash_one_slash; apply valid_chars_slash_free; assumption).
  rewrite (proj2 (validateRepo_ok {| owner := owner r; name := name r |})) by auto.
  destruct r; reflexivity.
Qed.

(** * Further properties of the code *)

(** X1: [PureRepositorySelect.render] shows a [<select>] exactly for a
    [VALID] status; while [LOADING] it shows the prompt without a
    [<select>]; [NO_REPOS] and [FAILURE] show two different error texts. *)
Theorem render_select_iff_valid :
  (forall s, (exists value options, render s = SelectLabel (Some (value, options))) <->
             (exists availableRepos selectedRepo, s = VALID availableRepos selectedRepo)) /\
  render LOADING = SelectLabel None /\
  (exists t1 t2, render NO_REPOS = ErrorSpan t1 /\ render FAILURE = ErrorSpan t2 /\ t1 <> t2).
Proof.
  split; [|split; [reflexivity|]].
  - intros [|a sel| |]; simpl; split;
      try (intros (? & ? & H); discriminate H);
      try (intros (? & ? & H); discriminate H); eauto.
  - do 2 eexists. split; [reflexivity|]. split; [reflexivity|]. discriminate.
Qed.

(** X2: whatever [loadStatus] resolves to, if the view shows a [<select>],
    its [value] token is the token of one of its [<option>]s. *)
Theorem render_loadStatus_value_in_options fetch (get : LocalStoreGet) value options
  (H : render (loadStatus fetch get) = SelectLabel (Some (value, options))) :
  In value options.
Proof.
  pose proof (loadStatus_status_ok fetch get) as Hok.
  destruct (loadStatus fetch get) as [|a sel| |]; simpl in H; try discriminate.
  simpl in Hok. injection H as Hv Ho. subst value options.
  apply in_map. exact Hok.
Qed.

Lemma render_loadStatus_value_in_options_witness :
  render (loadStatus (fetched [rBM; rAZ]) (reads JNull)) =
    SelectLabel (Some ("a/z", ["a/z"; "b/m"])) /\
  In "a/z" ["a/z"; "b/m"].
Proof.
  split; [reflexivity|].
  exact (render_loadStatus_value_in_options (fetched [rBM; rAZ]) (reads JNull)
           "a/z" ["a/z"; "b/m"] eq_refl).
Defined.

(** X3: distinct repos whose owners contain no ["/"] get distinct option
    tokens, so the [<option>] keys of [renderSelect] are unique. *)
Theorem option_tokens_distinct (availableRepos : list Repo)
  (Hnd : List.NoDup availableRepos)
  (Hsf : Forall (fun r => slash_free (owner r)) availableRepos) :
  List.NoDup (map repoToString availableRepos).
Proof.
  apply NoDup_map_on; [|exact Hnd].
  intros x y Hx Hy.
  apply repoToString_inj; apply (proj1 (List.Forall_forall _ _) Hsf); assumption.
Qed.

Lemma option_tokens_distinct_witness :
  List.NoDup [rAA; rAZ; rBM] /\ List.NoDup (map repoToString [rAA; rAZ; rBM]).
Proof.
  assert (Hnd : List.NoDup [rAA; rAZ; rBM])
    by (repeat constructor; simpl; intuition discriminate).
  split; [exact Hnd|].
  apply (option_tokens_distinct [rAA; rAZ; rBM] Hnd).
  repeat constructor.
Defined.

(** X4: in a [VALID] state, choosing the [<option>] token of one of the
    available repos whose owner and name are valid parses back to that
    repo: the status stays [VALID] over the same list with that repo
    selected (so the selection stays a member), the repo is stored under
    [REPO_KEY] and the host is called with it. *)
Theorem selectChange_option_token (st : Controller) availableRepos selectedRepo (r : Repo)
  (Hst : status st = VALID availableRepos selectedRepo)
  (Hin : In r availableRepos)
  (Ho : matches_validRe (owner r) = true) (Hn : matches_validRe (name r) = true) :
  exists st',
    selectChange (repoToString r) st = Ok st' /\
    status st' = VALID availableRepos r /\ status_ok (status st') /\
    store st' = <[REPO_KEY := repoToJson r]> (store st) /\
    hostCalls st' = (hostCalls st ++ [r])%list.
Proof.
  exists (onUserSelect r st).
  unfold selectChange, mbind, res_bind, mret, res_ret.
  rewrite (parse_repoToString r Ho Hn).
  rewrite onUserSelect_status, Hst, onUserSelect_store, onUserSelect_hostCalls.
  repeat split; exact Hin.
Qed.

Lemma selectChange_option_token_witness :
  exists st',
    selectChange (repoToString rAZ) (mkController (VALID [rAA; rAZ] rAA) ∅ []) = Ok st' /\
    status st' = VALID [rAA; rAZ] rAZ /\ status_ok (status st') /\
    store st' = <[REPO_KEY := repoToJson rAZ]> (store (mkController (VALID [rAA; rAZ] rAA) ∅ [])) /\
    hostCalls st' = (hostCalls (mkController (VALID [rAA; rAZ] rAA) ∅ []) ++ [rAZ])%list.
Proof.
  exact (selectChange_option_token (mkController (VALID [rAA; rAZ] rAA) ∅ []) [rAA; rAZ] rAA rAZ
           eq_refl (or_intror (or_introl eq_refl)) eq_refl eq_refl).
Defined.

(** X5: after mounting on a store [m] and any sequence of user selections
    [rs], the status is what [loadStatus] resolved to, except that a
    [VALID] status has the last selection (if any) as its selected repo;
    [NO_REPOS] and [FAILURE] stay as they are, and [LOADING] never comes
    back. *)
Theorem lifecycle_status fetch (m : gmap string json) (rs : list Repo) :
  status (userSelects rs (componentDidMount fetch (initController m))) =
    match loadStatus fetch (localStoreGet m) with
    | VALID availableRepos selectedRepo => VALID availableRepos (List.last rs selectedRepo)
    | s => s
    end /\
  status (userSelects rs (componentDidMount fetch (initController m))) <> LOADING.
Proof.
  rewrite userSelects_status.
  destruct (componentDidMount_parts fetch (initController m)) as [-> _].
  simpl. pose proof (loadStatus_not_loading fetch (localStoreGet m)) as Hnl.
  destruct (loadStatus fetch (localStoreGet m)); split; congruence.
Qed.

(** X6: mounting never writes the local store; after a sequence of user
    selections, the store holds the last selected repo under [REPO_KEY]
    and is otherwise unchanged. *)
Theorem lifecycle_store fetch (m : gmap string json) (rs : list Repo) :
  store (userSelects rs (componentDidMount fetch (initController m))) =
    match rs with
    | [] => m
    | r :: _ => <[REPO_KEY := repoToJson (List.last rs r)]> m
    end.
Proof.
  rewrite userSelects_store.
  destruct (componentDidMount_parts fetch (initController m)) as [_ [-> _]].
  reflexivity.
Qed.

(** X7: over a mount and a sequence of user selections, the host's
    [onChange] receives the resolved selected repo (only if the status is
    [VALID]) followed by every user selection, in order. *)
Theorem lifecycle_hostCalls fetch (m : gmap string json) (rs : list Repo) :
  hostCalls (userSelects rs (componentDidMount fetch (initController m))) =
    ((match loadStatus fetch (localStoreGet m) with
      | VALID _ selectedRepo => [selectedRepo]
      | _ => []
      end) ++ rs)%list.
Proof.
  rewrite userSelects_hostCalls.
  destruct (componentDidMount_parts fetch (initController m)) as [_ [_ ->]].
  reflexivity.
Qed.

(** X8: a repo selected by the user is selected again by the next
    [loadStatus] that reads the store, as long as the registry still lists
    it. *)
Theorem reload_after_select (st : Controller) (r : Repo) (l : list Repo)
  (Hin : In r l) :
  loadStatus (fetched l) (localStoreGet (store (onUserSelect r st))) = VALID (sortBy l) r.
Proof.
  assert (Hne : l <> []) by (intros ->; contradiction).
  rewrite (loadStatus_nonempty l _ (repoToJson r) r Hne).
  - assert (Hm : exists x, In x l /\ deepEqual x (repoToJson r) = true)
      by (exists r; split; [exact Hin | apply deepEqual_repoToJson; reflexivity]).
    destruct (find_exists _ _ Hm) as [x Hx].
    destruct (find_first _ _ _ Hx) as [Hxr _].
    apply deepEqual_repoToJson in Hxr. subst x. rewrite Hx. reflexivity.
  - unfold localStoreGet. rewrite onUserSelect_store, lookup_insert_eq. reflexivity.
Qed.

Lemma reload_after_select_witness :
  loadStatus (fetched [rAZ; rBM; rAA]) (localStoreGet (store (onUserSelect rBM (initController ∅)))) =
    VALID [rAA; rAZ; rBM] rBM.
Proof.
  exact (reload_after_select (initController ∅) rBM [rAZ; rBM; rAA]
           (or_intror (or_introl eq_refl))).
Defined.

(** X9: the [availableRepos] of a [VALID] status are a permutation of the
    decoded registry list: nothing is dropped or added, duplicates kept. *)
Theorem loadStatus_permutation (l : list Repo) (get : LocalStoreGet) availableRepos selectedRepo
  (H : loadStatus (fetched l) get = VALID availableRepos selectedRepo) :
  Permutation availableRepos l.
Proof.
  apply loadStatus_VALID_inv in H as (l' & v & _ & Hf & _ & -> & _).
  unfold fetched in Hf. injection Hf as ->. apply sortBy_perm.
Qed.

Lemma loadStatus_permutation_witness :
  loadStatus (fetched [rBM; rAA; rBM]) (reads JNull) = VALID [rAA; rBM; rBM] rBM /\
  Permutation [rAA; rBM; rBM] [rBM; rAA; rBM].
Proof.
  split; [reflexivity|].
  exact (loadStatus_permutation [rBM; rAA; rBM] (reads JNull) [rAA; rBM; rBM] rBM eq_refl).
Defined.

(** X10: [loadStatus] yields [NO_REPOS] exactly for a successful fetch
    whose body decodes to the empty list, whatever the store read does
    (it is not consulted then). *)
Theorem loadStatus_no_repos_iff fetch (get : LocalStoreGet) :
  loadStatus fetch get = NO_REPOS <-> fetch = fetched [].
Proof.
  split.
  - unfold loadStatus, loadStatus_try, mbind, res_bind, mret, res_ret.
    destruct fetch as [[[] [[|r0 rest]|e]]|e]; simpl; try discriminate; [reflexivity|].
    destruct (get REPO_KEY JNull); discriminate.
  - intros ->. reflexivity.
Qed.

(** X11: a decoded list already ascending by owner, then name, is shown
    in its own order ([sortBy] leaves it unchanged). *)
Theorem sortBy_sorted_input (l : list Repo) (Hs : Sorted owner_name_le l) : sortBy l = l.
Proof.
  apply sortBy_of_sorted. apply (Sorted_weaken owner_name_le); [|exact Hs].
  intros a b Hab. apply repo_le_owner_name, Hab.
Qed.

Lemma sortBy_sorted_input_witness : sortBy [rAA; rAZ; rBM] = [rAA; rAZ; rBM].
Proof.
  apply sortBy_sorted_input.
  repeat constructor; unfold owner_name_le; simpl; auto; right; split; auto; discriminate.
Defined.
